(** * MyMemoryGame: the match-and-turn state machine, the board layout,
      the translator and the last-settings record

    A shallow embedding of the logic of [memory.py] and [i18n.py].

    - [Game]    the card state machine of [MemoryApp]: [flip_card],
                [check_match], [next_player], [finish_game].
    - [PyFloat] Python's [float] (IEEE 754 binary64) on top of the
                Standard Library's [SpecFloat]: conversion from [int],
                true division, [math.sqrt], [math.ceil], [int()].
    - [Layout]  [calculate_grid] and [calculate_card_size].
    - [I18n]    the translator class of [i18n.py].
    - [App]     the life cycle of [MemoryApp.last_settings].

    Python objects are modelled as follows.  An [int] used as an index or a
    counter is a [nat]; an [int] that may be negative is a [Z].  A [list] is
    a [list] read with [!!] (an [IndexError] is [None] in the [option]
    monad); a [set] of indices is a [gset nat]; a [dict] keyed by indices is
    a [gmap nat _].  A [PhotoImage] is compared by identity in the source
    ([==] on objects without [__eq__]), so it is modelled by the number that
    identifies the object.  Widget calls that only repaint (labels, sounds,
    dialogs) are left out; the widget state that the game logic writes (the
    image and the state of a card button, the highlight of a slot) is kept. *)

From Stdlib Require Import ZArith SpecFloat.
From stdpp Require Import gmap strings list.

#[local] Open Scope nat_scope.

(* ===================================================================== *)
(** * Part I: the embedding                                               *)
(* ===================================================================== *)

Module Game.

(** The identity of a [PhotoImage] object. *)
Definition photo := nat.

(** What a card button shows: [card_back_image] or the card's own image. *)
Inductive face :=
  | Back
  | Front (img : photo).

Record button := Button { image : face; disabled : bool }.

(** An entry of [matched_paths]: [{"path": ..., "player": ...}]. *)
Record entry := Entry { path : string; player : nat }.

Definition PLAYER_COLORS : list string :=
  ["#ff6b6b"; "#4ecdc4"; "#ffe66d"; "#5d8cf6"; "#ff9f1c"; "#9b5de5"].

Definition NO_COLOR : string := "#1a1a1a".

(** The attributes of [MemoryApp] that the game logic reads or writes.
    [finished] is a ghost flag: it records that [finish_game] has run. *)
Record state := State {
  num_players : nat;
  num_cards : nat;
  player_colors : list string;
  cards : list photo;
  card_paths : list (option string);
  current_player : nat;
  player_scores : list nat;
  card_owner : gmap nat nat;
  buttons : list button;
  card_slots : list string;
  flipped : list nat;
  matched : gset nat;
  matched_paths : list entry;
  finished : bool
}.

Definition set_current_player (v : nat) (s : state) : state :=
  State (num_players s) (num_cards s) (player_colors s) (cards s)
    (card_paths s) v (player_scores s) (card_owner s) (buttons s)
    (card_slots s) (flipped s) (matched s) (matched_paths s) (finished s).

Definition set_player_scores (v : list nat) (s : state) : state :=
  State (num_players s) (num_cards s) (player_colors s) (cards s)
    (card_paths s) (current_player s) v (card_owner s) (buttons s)
    (card_slots s) (flipped s) (matched s) (matched_paths s) (finished s).

Definition set_card_owner (v : gmap nat nat) (s : state) : state :=
  State (num_players s) (num_cards s) (player_colors s) (cards s)
    (card_paths s) (current_player s) (player_scores s) v (buttons s)
    (card_slots s) (flipped s) (matched s) (matched_paths s) (finished s).

Definition set_buttons (v : list button) (s : state) : state :=
  State (num_players s) (num_cards s) (player_colors s) (cards s)
    (card_paths s) (current_player s) (player_scores s) (card_owner s) v
    (card_slots s) (flipped s) (matched s) (matched_paths s) (finished s).

Definition set_card_slots (v : list string) (s : state) : state :=
  State (num_players s) (num_cards s) (player_colors s) (cards s)
    (card_paths s) (current_player s) (player_scores s) (card_owner s)
    (buttons s) v (flipped s) (matched s) (matched_paths s) (finished s).

Definition set_flipped (v : list nat) (s : state) : state :=
  State (num_players s) (num_cards s) (player_colors s) (cards s)
    (card_paths s) (current_player s) (player_scores s) (card_owner s)
    (buttons s) (card_slots s) v (matched s) (matched_paths s) (finished s).

Definition set_matched (v : gset nat) (s : state) : state :=
  State (num_players s) (num_cards s) (player_colors s) (cards s)
    (card_paths s) (current_player s) (player_scores s) (card_owner s)
    (buttons s) (card_slots s) (flipped s) v (matched_paths s) (finished s).

Definition set_matched_paths (v : list entry) (s : state) : state :=
  State (num_players s) (num_cards s) (player_colors s) (cards s)
    (card_paths s) (current_player s) (player_scores s) (card_owner s)
    (buttons s) (card_slots s) (flipped s) (matched s) v (finished s).

Definition set_finished (v : bool) (s : state) : state :=
  State (num_players s) (num_cards s) (player_colors s) (cards s)
    (card_paths s) (current_player s) (player_scores s) (card_owner s)
    (buttons s) (card_slots s) (flipped s) (matched s) (matched_paths s) v.

(** [self.buttons[idx].config(image=...)] and [config(state="disabled")]:
    the subscript raises [IndexError] out of range. *)
Definition config_image (idx : nat) (f : face) (s : state) : option state :=
  b ← buttons s !! idx;
  Some (set_buttons (<[idx := Button f (disabled b)]> (buttons s)) s).

Definition config_disabled (idx : nat) (s : state) : option state :=
  b ← buttons s !! idx;
  Some (set_buttons (<[idx := Button (image b) true]> (buttons s)) s).

(** [slot.config(highlightbackground=color, highlightcolor=color)]. *)
Definition config_slot (idx : nat) (color : string) (s : state)
  : option state :=
  _ ← card_slots s !! idx;
  Some (set_card_slots (<[idx := color]> (card_slots s)) s).

(** [flip_card]: the callback of card button [idx].  When the second card
    is turned, the source schedules [check_match] with [root.after]; the
    event loop delivers it later, so it is a separate step of the machine
    (see [step]). *)
Definition flip_card (idx : nat) (s : state) : option state :=
  if bool_decide (idx ∈ matched s) || bool_decide (idx ∈ flipped s)
  then Some s
  else if bool_decide (2 ≤ length (flipped s)) then Some s
  else
    _ ← buttons s !! idx;
    img ← cards s !! idx;
    s1 ← config_image idx (Front img) s;
    Some (set_flipped (flipped s1 ++ [idx]) s1).

(** [color_matched_cards(indices, player_index)]. *)
Definition color_matched_cards (indices : list nat) (player_index : nat)
    (s : state) : option state :=
  color ← player_colors s !! player_index;
  foldl (fun acc idx => s' ← acc; config_slot idx color s') (Some s) indices.

(** [next_player]. *)
Definition next_player (s : state) : state :=
  if bool_decide (num_players s ≤ 1) then s
  else set_current_player ((current_player s + 1) mod num_players s) s.

(** [finish_game] enables the review button and opens the result dialog;
    of the game state it changes nothing.  The ghost flag notes the call. *)
Definition finish_game (s : state) : state := set_finished true s.

(** The gallery update of [check_match]:
    [if self.card_paths: path = self.card_paths[i1]; if path and not any(...)]. *)
Definition has_path (p : string) (g : list entry) : bool :=
  existsb (fun e => bool_decide (path e = p)) g.

Definition record_path (i1 : nat) (s : state) : option state :=
  match card_paths s with
  | [] => Some s
  | _ =>
    p ← card_paths s !! i1;
    match p with
    | Some p =>
      if bool_decide (p ≠ "") && negb (has_path p (matched_paths s))
      then Some (set_matched_paths
                   (matched_paths s ++ [Entry p (current_player s)]) s)
      else Some s
    | None => Some s
    end
  end.

(** The branch of [check_match] taken when the two images are equal. *)
Definition on_match (i1 i2 : nat) (s : state) : option state :=
  let s := set_matched (matched s ∪ list_to_set (flipped s)) s in
  let s := set_card_owner
             (<[i2 := current_player s]>
                (<[i1 := current_player s]> (card_owner s))) s in
  s ← foldl (fun acc idx => s' ← acc; config_disabled idx s')
            (Some s) (flipped s);
  s ← color_matched_cards (flipped s) (current_player s) s;
  score ← player_scores s !! current_player s;
  let s := set_player_scores
             (<[current_player s := score + 1]> (player_scores s)) s in
  record_path i1 s.

(** The branch taken when they differ. *)
Definition on_mismatch (s : state) : option state :=
  s ← foldl (fun acc i => s' ← acc; config_image i Back s')
            (Some s) (flipped s);
  Some (next_player s).

(** [check_match]. *)
Definition check_match (s : state) : option state :=
  match flipped s with
  | [i1; i2] =>
    c1 ← cards s !! i1;
    c2 ← cards s !! i2;
    s ← (if bool_decide (c1 = c2) then on_match i1 i2 s else on_mismatch s);
    let s := set_flipped [] s in
    Some (if bool_decide (size (matched s) = num_cards s)
          then finish_game s else s)
  | _ => Some s
  end.

(** ** Dealing: [start_game], [build_game_ui] and [prepare_cards] *)

(** [prepare_cards] before the shuffle: every entry of the sample twice. *)
Definition doubled (paired : list (photo * string))
  : list (photo * string) :=
  flat_map (fun e => [e; e]) paired.

(** [num_players = max(1, min(num_players, len(self.PLAYER_COLORS)))]. *)
Definition clamp_players (requested : Z) : nat :=
  Z.to_nat (Z.max 1 (Z.min requested (Z.of_nat (length PLAYER_COLORS)))).

(** The state in which [build_game_ui] leaves the application, for the
    shuffled pairs [combined] of [prepare_cards]. [create_board] makes one
    enabled, face-down button and one slot per card. *)
Definition start_game (requested_players : Z) (num_pairs : nat)
    (combined : list (photo * string)) : state :=
  let n := clamp_players requested_players in
  {| num_players := n;
     num_cards := num_pairs * 2;
     player_colors := take n PLAYER_COLORS;
     cards := combined.*1;
     card_paths := Some <$> combined.*2;
     current_player := 0;
     player_scores := replicate n 0;
     card_owner := ∅;
     buttons := replicate (num_pairs * 2) (Button Back false);
     card_slots := replicate (num_pairs * 2) NO_COLOR;
     flipped := [];
     matched := ∅;
     matched_paths := [];
     finished := false |}.

(** The image pool of [build_game_ui]: one [(photo, path)] per loaded
    file.  The paths come from [get_image_paths] (distinct, each ending in
    an image extension) and every path gets a [PhotoImage] of its own. *)
Definition wf_pool (pool : list (photo * string)) : Prop :=
  NoDup pool.*1 ∧ NoDup pool.*2 ∧ Forall (fun e => e.2 ≠ "") pool.

(** [random.sample] of the whole pool followed by [random.shuffle] of the
    doubled list: any arrangement of the doubled pool can come out. *)
Definition fresh_game (s : state) : Prop :=
  ∃ (requested : Z) (pool combined : list (photo * string)),
    wf_pool pool ∧ 1 ≤ length pool ∧
    combined ≡ₚ doubled pool ∧
    s = start_game requested (length pool) combined.

(** ** The machine *)

Inductive event :=
  | Flip (idx : nat)      (* a click on card button [idx] *)
  | Check.                (* the callback scheduled by [root.after] *)

Definition step (s : state) (e : event) : option state :=
  match e with
  | Flip idx => flip_card idx s
  | Check => check_match s
  end.

Fixpoint run (s : state) (evs : list event) : option state :=
  match evs with
  | [] => Some s
  | e :: evs => s' ← step s e; run s' evs
  end.

Definition reachable (s : state) : Prop :=
  ∃ s0 evs, fresh_game s0 ∧ run s0 evs = Some s.

(** The pairs found along a run, in order: for every [Check] that meets
    two equal face-up cards, the path of the first one and the player who
    turned them. *)
Definition find_of (s : state) : list (string * nat) :=
  match flipped s with
  | [i1; i2] =>
    match cards s !! i1, cards s !! i2, card_paths s !! i1 with
    | Some c1, Some c2, Some (Some p) =>
      if bool_decide (c1 = c2) && bool_decide (p ≠ "")
      then [(p, current_player s)] else []
    | _, _, _ => []
    end
  | _ => []
  end.

Fixpoint finds (s : state) (evs : list event) : list (string * nat) :=
  match evs with
  | [] => []
  | e :: evs =>
    match step s e with
    | Some s' =>
      (match e with Check => find_of s | Flip _ => [] end) ++ finds s' evs
    | None => []
    end
  end.

(** The first finder of every path of a list of finds. *)
Fixpoint first_finders (acc : list entry) (l : list (string * nat))
  : list entry :=
  match l with
  | [] => acc
  | (p, pl) :: l =>
    first_finders (if has_path p acc then acc else acc ++ [Entry p pl]) l
  end.

(** ** Explicit result states and the invariant

    The definitions below serve the proofs of Part II: the states in which
    the two branches of [check_match] end, written without the [option]
    monad, and the invariant of the machine. *)

(** The state after a mismatch, written out. *)
Definition mismatch_result (i1 i2 : nat) (b1 b2 : button) (s : state) : state :=
  next_player
    (set_buttons
       (<[i2 := Button Back (disabled b2)]>
          (<[i1 := Button Back (disabled b1)]> (buttons s))) s).

(** The state after a match, before the gallery update. *)
Definition match_result (i1 i2 : nat) (b1 b2 : button) (color : string)
    (score : nat) (s : state) : state :=
  set_player_scores (<[current_player s := score + 1]> (player_scores s))
    (set_card_slots (<[i2 := color]> (<[i1 := color]> (card_slots s)))
       (set_buttons
          (<[i2 := Button (image b2) true]>
             (<[i1 := Button (image b1) true]> (buttons s)))
          (set_card_owner
             (<[i2 := current_player s]>
                (<[i1 := current_player s]> (card_owner s)))
             (set_matched (matched s ∪ list_to_set [i1; i2]) s)))).

Record inv (s : state) : Prop := Inv {
  inv_players : 1 ≤ num_players s;
  inv_colors : length (player_colors s) = num_players s;
  inv_scores : length (player_scores s) = num_players s;
  inv_current : current_player s < num_players s;
  inv_cards : length (cards s) = num_cards s;
  inv_paths : length (card_paths s) = num_cards s;
  inv_paths_ok : Forall (fun p => ∃ q, p = Some q ∧ q ≠ "") (card_paths s);
  inv_buttons : length (buttons s) = num_cards s;
  inv_slots : length (card_slots s) = num_cards s;
  inv_flipped_nodup : NoDup (flipped s);
  inv_flipped_len : length (flipped s) ≤ 2;
  inv_flipped_range : ∀ i, i ∈ flipped s → i < num_cards s ∧ i ∉ matched s;
  inv_matched_range : ∀ i, i ∈ matched s → i < num_cards s;
  inv_score_sum : 2 * sum_list (player_scores s) = size (matched s);
  inv_gallery : NoDup (path <$> matched_paths s);
  inv_finished : finished s = true → size (matched s) = num_cards s
}.

(** [if len(self.matched) == self.num_cards: self.finish_game()]. *)
Definition finish_if_complete (s : state) : state :=
  if bool_decide (size (matched s) = num_cards s) then finish_game s else s.

(** The gallery update on a state whose first face-up card has path [p]. *)
Definition gallery_result (p : string) (s : state) : state :=
  if has_path p (matched_paths s) then s
  else set_matched_paths (matched_paths s ++ [Entry p (current_player s)]) s.



(** ** A small board for the examples: two pairs, two players *)

Definition demo_pool : list (photo * string) := [(7, "a.png"); (8, "b.png")].

Definition demo_board : list (photo * string) :=
  [(7, "a.png"); (8, "b.png"); (7, "a.png"); (8, "b.png")].

Definition demo_start : state := start_game 2 (length demo_pool) demo_board.

(** Cards 0 and 1 (different images) are face-up. *)
Definition demo_mismatch : state :=
  default demo_start (run demo_start [Flip 0; Flip 1]).


(** A full play-through: player 0 misses, player 1 finds both pairs. *)
Definition demo_play : list event :=
  [Flip 0; Flip 1; Check; Flip 0; Flip 2; Check; Flip 3; Flip 1; Check].

Definition demo_end : state := default demo_start (run demo_start demo_play).

End Game.

Module I18n.

(** ** Python strings and dictionaries

    A [str] is modelled by a string of ASCII characters: [lower] and
    [strip] below are Python's [str.lower] and [str.strip] on such strings.
    A [dict] that the code iterates ([next(iter(self.messages))]) keeps the
    order in which its keys were first inserted: it is a list of pairs with
    distinct keys. *)

Definition lower_ascii (a : Ascii.ascii) : Ascii.ascii :=
  let n := Ascii.nat_of_ascii a in
  if (65 <=? n) && (n <=? 90) then Ascii.ascii_of_nat (n + 32) else a.

Fixpoint lower (s : string) : string :=
  match s with
  | EmptyString => EmptyString
  | String a r => String (lower_ascii a) (lower r)
  end.

(** [str.isspace] on one ASCII character: tab to carriage return, the four
    separators [0x1c] to [0x1f], and the space. *)
Definition isspace (a : Ascii.ascii) : bool :=
  let n := Ascii.nat_of_ascii a in
  ((9 <=? n) && (n <=? 13)) || ((28 <=? n) && (n <=? 32)).

Fixpoint lstrip (s : string) : string :=
  match s with
  | EmptyString => EmptyString
  | String a r => if isspace a then lstrip r else s
  end.

Definition strip (s : string) : string :=
  String.rev (lstrip (String.rev (lstrip s))).

(** [key.split(".")]: never empty, [""] for the empty string. *)
Fixpoint split_dot (s : string) : list string :=
  match s with
  | EmptyString => [EmptyString]
  | String a r =>
    if Ascii.eqb a (Ascii.ascii_of_nat 46) then EmptyString :: split_dot r
    else match split_dot r with
         | h :: tl => String a h :: tl
         | [] => [String a EmptyString]
         end
  end.

Definition odict (V : Type) : Type := list (string * V).

Fixpoint dict_get {V} (k : string) (d : odict V) : option V :=
  match d with
  | [] => None
  | (k', v) :: d => if decide (k' = k) then Some v else dict_get k d
  end.

Definition dict_in {V} (k : string) (d : odict V) : bool :=
  bool_decide (k ∈ d.*1).

(** [d[k] = v]: a key that is present keeps its place. *)
Fixpoint dict_set {V} (k : string) (v : V) (d : odict V) : odict V :=
  match d with
  | [] => [(k, v)]
  | (k', v') :: d => if decide (k' = k) then (k, v) :: d
                     else (k', v') :: dict_set k v d
  end.

(** [next(iter(d))] of a non-empty dictionary. *)
Definition first_key {V} (d : odict V) : option string := fst <$> head d.

(** ** Catalogs

    What [yaml.safe_load] returns, as far as the translator looks at it: a
    string, a mapping, [None], or anything else (number, boolean, list) of
    which only the truth value matters.  A mapping is kept by its string
    keys: the code reads it with [get(part)] and [pop("meta")] only, and
    [part] is always a string. *)
#[warnings="-register-all"]
Inductive value :=
  | VNone
  | VStr (s : string)
  | VDict (d : gmap string value)
  | VOther (truthy : bool).

Definition catalog : Type := gmap string value.

(** The object: [self.default], [self.messages], [self.language_labels] and
    [self.lang] ([locales_dir] is read by the constructor only). *)
Record i18n := I18N {
  default_lang : string;
  messages : odict catalog;
  language_labels : odict string;
  lang : string
}.

(** A file that [glob] found: its stem, and what [yaml.safe_load] made of
    it ([None] when opening or parsing raised). *)
Record locale_file := LocaleFile {
  stem : string;
  loaded : option value
}.

(** Python's truth value of a loaded document. *)
Definition truthy_value (v : value) : bool :=
  match v with
  | VNone => false
  | VStr s => negb (String.eqb s "")
  | VDict d => negb (bool_decide (d = ∅))
  | VOther b => b
  end.

(** [_load_locale_file]. *)
Definition load_locale_file (f : locale_file) (st : i18n) : i18n :=
  match loaded f with
  | None => st
  | Some v =>
    let data := if truthy_value v then v else VDict ∅ in
    match data with
    | VDict d =>
      let meta := default (VDict ∅) (d !! "meta") in
      let d := delete "meta" d in
      let code := lower (stem f) in
      let labels :=
        match meta with
        | VDict m =>
          match m !! "language_name" with
          | Some (VStr label) =>
            if negb (String.eqb (strip label) "")
            then dict_set code (strip label) (language_labels st)
            else language_labels st
          | _ => language_labels st
          end
        | _ => language_labels st
        end in
      I18N (default_lang st) (dict_set code d (messages st)) labels (lang st)
    | _ => st
    end
  end.

(** [_load_locales]: the [*.yml] files in sorted order, then the [*.yaml]
    files.  A directory that does not exist has no files. *)
Definition load_locales (yml yaml : list locale_file) (st : i18n) : i18n :=
  foldl (fun st f => load_locale_file f st) st (yml ++ yaml).

(** [(code or "").strip().lower()]. *)
Definition normalize (code : option string) : string :=
  lower (strip (default "" code)).

(** [set_language]: the new object and the returned flag. *)
Definition set_language (code : option string) (st : i18n) : i18n * bool :=
  let normalized := normalize code in
  let normalized :=
    if dict_in normalized (messages st) then normalized
    else
      let normalized :=
        if dict_in (default_lang st) (messages st) then default_lang st
        else lang st in
      if negb (dict_in normalized (messages st))
      then default normalized (first_key (messages st))
      else normalized in
  let changed := negb (String.eqb normalized (lang st)) in
  (I18N (default_lang st) (messages st) (language_labels st) normalized,
   changed).

(** [__init__(locales_dir, default)]. *)
Definition init (yml yaml : list locale_file) (default_code : option string)
  : i18n :=
  let d := match default_code with
           | Some c => if String.eqb c "" then "de" else c
           | None => "de"
           end in
  let d := lower (strip d) in
  let st := load_locales yml yaml (I18N d [] [] d) in
  let d := if negb (dict_in d (messages st))
           then default d (first_key (messages st)) else d in
  let st := I18N d (messages st) (language_labels st) (lang st) in
  (set_language (Some d) st).1.

(** [_resolve]. *)
Fixpoint resolve (data : value) (parts : list string) : value :=
  match parts with
  | [] => data
  | part :: parts =>
    match data with
    | VDict d => resolve (default VNone (d !! part)) parts
    | _ => VNone
    end
  end.

(** [self.messages.get(code, {})]. *)
Definition messages_get (code : string) (st : i18n) : value :=
  VDict (default ∅ (dict_get code (messages st))).

(** What [value.format], called with the keyword arguments, does: a string, a [KeyError] or
    [ValueError] (which [t] catches), or another exception (which it does
    not: an [IndexError] for a positional field, for instance). *)
Inductive format_result :=
  | Formatted (s : string)
  | FormatCaught
  | FormatRaised.

Section translate.

(** [str.format] is Python's; it is a parameter of the model, with the
    type of the keyword arguments. *)
Variable pyobj : Type.
Variable format : string → list (string * pyobj) → format_result.

(** [t(key, kwargs...)]; [None] is an exception that leaves [t]. *)
Definition t (key : string) (kwargs : list (string * pyobj)) (st : i18n)
  : option string :=
  if String.eqb key "" then Some ""
  else
    let parts := split_dot key in
    let value := resolve (messages_get (lang st) st) parts in
    let value :=
      match value with
      | VNone =>
        if dict_in (default_lang st) (messages st)
        then resolve (messages_get (default_lang st) st) parts
        else value
      | _ => value
      end in
    match value with
    | VStr s =>
      match kwargs with
      | [] => Some s
      | _ =>
        match format s kwargs with
        | Formatted r => Some r
        | FormatCaught => Some s
        | FormatRaised => None
        end
      end
    | _ => Some key
    end.

End translate.

(** [get_language_label]. *)
Definition get_language_label (code : option string) (st : i18n) : string :=
  let normalized := normalize code in
  default (if String.eqb normalized "" then lang st else normalized)
          (dict_get normalized (language_labels st)).

(** ** The translator as the claim describes it

    Following the spec's words, not the source: the string under the key in
    the active catalog; when the key does not resolve to a string there, the
    string in the default catalog; when it resolves in neither, the key. *)
Definition t_as_claimed (key : string) (st : i18n) : string :=
  match resolve (messages_get (lang st) st) (split_dot key) with
  | VStr s => s
  | _ =>
    match resolve (messages_get (default_lang st) st) (split_dot key) with
    | VStr s => s
    | _ => key
    end
  end.

(** The objects a program can hold: built by [__init__], then changed by
    [set_language] only. *)
Definition constructed (st : i18n) : Prop :=
  ∃ yml yaml d codes,
    st = foldl (fun st c => (set_language c st).1) (init yml yaml d) codes.

(** What holds of every object once [__init__] has run. *)
Definition i18n_wf (st : i18n) : Prop :=
  (messages st = [] → lang st = default_lang st) ∧
  (messages st ≠ [] →
   default_lang st ∈ (messages st).*1 ∧ lang st ∈ (messages st).*1).

(** How [t] hands out a string [s]: as it is without keyword arguments,
    through [format] otherwise. *)
Definition render {pyobj} (format : string → list (string * pyobj) → format_result)
    (kwargs : list (string * pyobj)) (s : string) : option string :=
  match kwargs with
  | [] => Some s
  | _ => match format s kwargs with
         | Formatted r => Some r
         | FormatCaught => Some s
         | FormatRaised => None
         end
  end.

(** ** Two catalogs for the examples *)

Definition demo_de : locale_file :=
  LocaleFile "de"
    (Some (VDict {[ "meta" := VDict {[ "language_name" := VStr "Deutsch" ]};
                    "menu" := VDict {[ "start" := VStr "Spiel starten";
                                       "title" := VStr "Memory" ]};
                    "hello" := VStr "Hallo {name}" ]})).

Definition demo_en : locale_file :=
  LocaleFile "EN"
    (Some (VDict {[ "meta" := VDict {[ "language_name" := VStr " English " ]};
                    "menu" := VDict {[ "start" := VStr "Start game";
                                       "title" := VOther true ]} ]})).

Definition demo_i18n : i18n := init [demo_de; demo_en] [] (Some "de").

Definition demo_i18n_en : i18n := (set_language (Some " En ") demo_i18n).1.

Definition no_format : string → list (string * unit) → format_result :=
  fun _ _ => FormatRaised.

End I18n.

(* ===================================================================== *)
(** * Part II: properties                                                 *)
(* ===================================================================== *)

Section game_facts.
Import Game.

(** ** What one call does *)

Lemma flip_card_cases idx s s' :
  flip_card idx s = Some s' →
  s' = s ∨
  ((idx ∉ matched s) ∧ (idx ∉ flipped s) ∧ length (flipped s) < 2 ∧
   ∃ b img, buttons s !! idx = Some b ∧ cards s !! idx = Some img ∧
     s' = set_flipped (flipped s ++ [idx])
            (set_buttons (<[idx := Button (Front img) (disabled b)]> (buttons s)) s)).
Proof.
  unfold flip_card, config_image. intros H.
  destruct (bool_decide (idx ∈ matched s)) eqn:Hm; simpl in H;
    [left; congruence|].
  destruct (bool_decide (idx ∈ flipped s)) eqn:Hf; simpl in H;
    [left; congruence|].
  destruct (bool_decide (2 ≤ length (flipped s))) eqn:Hl;
    [left; congruence|].
  apply bool_decide_eq_false in Hm, Hf, Hl.
  destruct (buttons s !! idx) as [b|] eqn:Hb; simpl in H; [|discriminate].
  destruct (cards s !! idx) as [img|] eqn:Hc; simpl in H; [|discriminate].
  injection H as <-. right. repeat split; [done|done|lia|].
  exists b, img. done.
Qed.

Lemma flip_card_rejected idx s :
  idx ∈ matched s ∨ idx ∈ flipped s ∨ 2 ≤ length (flipped s) →
  flip_card idx s = Some s.
Proof.
  unfold flip_card. intros [H|[H|H]].
  - rewrite (bool_decide_eq_true_2 _ H). done.
  - rewrite (bool_decide_eq_true_2 _ H), orb_true_r. done.
  - rewrite (bool_decide_eq_true_2 _ H). by destruct (_ || _).
Qed.

Lemma on_mismatch_eq i1 i2 b1 s :
  flipped s = [i1; i2] → i1 ≠ i2 →
  buttons s !! i1 = Some b1 →
  on_mismatch s =
    (fun b2 => mismatch_result i1 i2 b1 b2 s) <$> (buttons s !! i2).
Proof.
  intros Hf Hne H1. destruct s; simpl in *; subst.
  unfold on_mismatch, mismatch_result, config_image; simpl.
  rewrite H1; simpl. rewrite list_lookup_insert_ne by done.
  by destruct (_ !! i2).
Qed.

Lemma on_match_eq i1 i2 b1 b2 color score c1 c2 s :
  flipped s = [i1; i2] → i1 ≠ i2 →
  buttons s !! i1 = Some b1 → buttons s !! i2 = Some b2 →
  card_slots s !! i1 = Some c1 → card_slots s !! i2 = Some c2 →
  player_colors s !! current_player s = Some color →
  player_scores s !! current_player s = Some score →
  on_match i1 i2 s = record_path i1 (match_result i1 i2 b1 b2 color score s).
Proof.
  intros Hf Hne H1 H2 Hs1 Hs2 Hc Hp.
  destruct s; simpl in *; subst.
  unfold on_match, match_result, color_matched_cards, config_disabled,
    config_slot; simpl.
  rewrite H1; simpl. rewrite list_lookup_insert_ne, H2 by done; simpl.
  rewrite Hc; simpl. rewrite Hs1; simpl.
  rewrite list_lookup_insert_ne, Hs2 by done; simpl.
  rewrite Hp; simpl. done.
Qed.

Lemma record_path_cases i1 s p :
  card_paths s !! i1 = Some (Some p) → p ≠ "" →
  record_path i1 s =
    Some (if has_path p (matched_paths s) then s
          else set_matched_paths
                 (matched_paths s ++ [Entry p (current_player s)]) s).
Proof.
  intros Hp Hne. unfold record_path.
  destruct (card_paths s) as [|x l] eqn:E; [done|].
  rewrite Hp. simpl. rewrite (bool_decide_eq_true_2 _ Hne). simpl.
  by destruct (has_path p (matched_paths s)).
Qed.

(** ** The invariant of the machine *)

Lemma sum_list_insert_succ (l : list nat) i x :
  l !! i = Some x → sum_list (<[i := x + 1]> l) = sum_list l + 1.
Proof.
  revert i. induction l as [|y l IH]; intros [|i] H; simplify_eq/=; [lia|].
  rewrite (IH _ H). lia.
Qed.

Lemma sum_list_replicate_0 n : sum_list (replicate n 0) = 0.
Proof. induction n; simpl; lia. Qed.

Lemma has_path_spec p g : has_path p g = true ↔ p ∈ path <$> g.
Proof.
  unfold has_path. rewrite existsb_exists, list_elem_of_fmap.
  split.
  - intros (e & Hin & He). apply bool_decide_eq_true in He.
    exists e. split; [done|]. by apply list_elem_of_In.
  - intros (e & -> & Hin). exists e. split; [by apply list_elem_of_In|].
    by apply bool_decide_eq_true.
Qed.

Lemma doubled_length pool : length (doubled pool) = length pool * 2.
Proof. induction pool; simpl; lia. Qed.

Lemma doubled_paths pool :
  Forall (fun e : photo * string => e.2 ≠ "") pool →
  Forall (fun e : photo * string => e.2 ≠ "") (doubled pool).
Proof. induction 1; simpl; repeat constructor; done. Qed.

Lemma clamp_players_bounds r : 1 ≤ clamp_players r ≤ 6.
Proof. unfold clamp_players. simpl. lia. Qed.

Lemma fresh_game_inv s : fresh_game s → inv s.
Proof.
  intros (r & pool & combined & (Hn1 & Hn2 & Hne) & Hlen & Hperm & ->).
  pose proof (clamp_players_bounds r) as Hr.
  assert (length combined = length pool * 2) as Hc.
  { rewrite Hperm. apply doubled_length. }
  split; simpl.
  - lia.
  - rewrite length_take. simpl. lia.
  - by rewrite length_replicate.
  - lia.
  - by rewrite length_fmap.
  - by rewrite !length_fmap.
  - apply Forall_fmap, Forall_fmap. 
    assert (Forall (fun e : photo * string => e.2 ≠ "") combined) as HF.
    { rewrite Hperm. by apply doubled_paths. }
    eapply Forall_impl; [exact HF|]. intros [a b] Hb. simpl in *. eauto.
  - by rewrite length_replicate.
  - by rewrite length_replicate.
  - constructor.
  - lia.
  - intros i Hi. by apply elem_of_nil in Hi.
  - intros i Hi. by apply elem_of_empty in Hi.
  - rewrite sum_list_replicate_0. done.
  - constructor.
  - discriminate.
Qed.

Lemma flip_card_inv idx s s' : inv s → flip_card idx s = Some s' → inv s'.
Proof.
  intros I H. apply flip_card_cases in H as [->|(Hm & Hf & Hl & b & img & Hb & Hc & ->)];
    [done|].
  apply lookup_lt_Some in Hb. destruct I. destruct s; simpl in *.
  split; simpl; try done.
  - by rewrite length_insert.
  - apply NoDup_app. split; [done|]. split; [|apply NoDup_singleton].
    intros x Hx ->%list_elem_of_singleton. done.
  - rewrite length_app. simpl. lia.
  - intros i [Hi| ->%list_elem_of_singleton]%elem_of_app; [auto|].
    split; [lia|done].
Qed.

(** In a state that satisfies the invariant, [check_match] on two face-up
    cards raises nothing, and its result is one of two explicit states. *)
Lemma check_match_explicit s i1 i2 :
  inv s → flipped s = [i1; i2] →
  ∃ c1 c2 b1 b2 color score p,
    cards s !! i1 = Some c1 ∧ cards s !! i2 = Some c2 ∧
    buttons s !! i1 = Some b1 ∧ buttons s !! i2 = Some b2 ∧
    player_colors s !! current_player s = Some color ∧
    player_scores s !! current_player s = Some score ∧
    card_paths s !! i1 = Some (Some p) ∧ p ≠ "" ∧
    i1 ≠ i2 ∧ (i1 ∉ matched s) ∧ (i2 ∉ matched s) ∧
    i1 < num_cards s ∧ i2 < num_cards s ∧
    check_match s =
      Some (finish_if_complete
              (set_flipped []
                 (if bool_decide (c1 = c2)
                  then gallery_result p (match_result i1 i2 b1 b2 color score s)
                  else mismatch_result i1 i2 b1 b2 s))).
Proof.
  intros I Hf. pose proof I as I'. destruct I.
  assert (i1 ≠ i2) as Hne.
  { rewrite Hf in inv_flipped_nodup0. apply NoDup_cons in inv_flipped_nodup0 as [H _].
    intros ->. apply H. by left. }
  destruct (inv_flipped_range0 i1) as [Hr1 Hm1]; [rewrite Hf; by left|].
  destruct (inv_flipped_range0 i2) as [Hr2 Hm2];
    [rewrite Hf; right; by left|].
  destruct (lookup_lt_is_Some_2 (cards s) i1) as [c1 Hc1]; [lia|].
  destruct (lookup_lt_is_Some_2 (cards s) i2) as [c2 Hc2]; [lia|].
  destruct (lookup_lt_is_Some_2 (buttons s) i1) as [b1 Hb1]; [lia|].
  destruct (lookup_lt_is_Some_2 (buttons s) i2) as [b2 Hb2]; [lia|].
  destruct (lookup_lt_is_Some_2 (card_slots s) i1) as [sl1 Hs1]; [lia|].
  destruct (lookup_lt_is_Some_2 (card_slots s) i2) as [sl2 Hs2]; [lia|].
  destruct (lookup_lt_is_Some_2 (player_colors s) (current_player s))
    as [color Hcol]; [lia|].
  destruct (lookup_lt_is_Some_2 (player_scores s) (current_player s))
    as [score Hsc]; [lia|].
  destruct (lookup_lt_is_Some_2 (card_paths s) i1) as [op Hp]; [lia|].
  destruct (proj1 (Forall_lookup _ _) inv_paths_ok0 _ _ Hp) as (p & -> & Hpne).
  exists c1, c2, b1, b2, color, score, p.
  repeat (split; [done|]).
  unfold check_match. rewrite Hf, Hc1, Hc2. simpl.
  destruct (bool_decide (c1 = c2)).
  - rewrite (on_match_eq i1 i2 b1 b2 color score sl1 sl2) by done.
    rewrite (record_path_cases _ _ p); [done| |done].
    destruct s; simpl in *. done.
  - rewrite (on_mismatch_eq i1 i2 b1) by done. rewrite Hb2. done.
Qed.

Lemma finish_if_complete_inv s :
  inv s → inv (finish_if_complete s).
Proof.
  intros I. unfold finish_if_complete. case_bool_decide; [|done].
  destruct I. destruct s; simpl in *. split; simpl; done.
Qed.

Lemma mismatch_result_inv s i1 i2 b1 b2 :
  inv s → inv (set_flipped [] (mismatch_result i1 i2 b1 b2 s)).
Proof.
  intros I. destruct I. unfold mismatch_result, next_player.
  destruct s; simpl in *.
  case_bool_decide; split; simpl; try done;
    rewrite ?length_insert; try done; try apply NoDup_nil_2; try lia;
    try (intros i Hi; by apply elem_of_nil in Hi).
  apply Nat.mod_upper_bound. lia.
Qed.

Lemma size_add_pair (m : gset nat) i1 i2 :
  i1 ≠ i2 → i1 ∉ m → i2 ∉ m → size (m ∪ list_to_set [i1; i2]) = size m + 2.
Proof.
  intros Hne H1 H2. simpl. rewrite size_union by set_solver.
  rewrite size_union by set_solver.
  rewrite union_empty_r_L, !size_singleton. lia.
Qed.

Lemma match_result_inv s i1 i2 b1 b2 color score p :
  inv s → i1 ≠ i2 → i1 ∉ matched s → i2 ∉ matched s →
  i1 < num_cards s → i2 < num_cards s →
  player_scores s !! current_player s = Some score →
  inv (set_flipped []
         (gallery_result p (match_result i1 i2 b1 b2 color score s))).
Proof.
  intros I Hne H1 H2 Hr1 Hr2 Hsc. destruct I.
  assert (size (matched s ∪ list_to_set [i1; i2]) ≤ num_cards s) as Hsize.
  { pose proof (subseteq_size (matched s ∪ list_to_set [i1; i2])
                  (set_seq 0 (num_cards s))) as HS.
    rewrite size_set_seq in HS. apply HS.
    intros x Hx. apply elem_of_set_seq. split; [lia|]. simpl.
    apply elem_of_union in Hx as [Hx|Hx]; [by apply inv_matched_range0|].
    set_solver by lia. }
  pose proof (size_add_pair (matched s) i1 i2 Hne H1 H2) as Hadd.
  pose proof (sum_list_insert_succ _ _ _ Hsc) as Hsum.
  unfold gallery_result, match_result.
  destruct (has_path p _) eqn:Hhp; destruct s; simpl in *;
    (split; simpl; rewrite ?length_insert; try done; try apply NoDup_nil_2;
     try lia; try (intros i Hi; by apply elem_of_nil in Hi)).
  - intros i [Hi|Hi]%elem_of_union; [auto|]. set_solver by lia.
  - intros Hfin. specialize (inv_finished0 Hfin). lia.
  - intros i [Hi|Hi]%elem_of_union; [auto|]. set_solver by lia.
  - rewrite fmap_app. simpl. apply NoDup_app. split; [done|].
    split; [|apply NoDup_singleton].
    intros x Hx ->%list_elem_of_singleton.
    apply has_path_spec in Hx. congruence.
  - intros Hfin. specialize (inv_finished0 Hfin). lia.
Qed.

Lemma check_match_inv s s' : inv s → check_match s = Some s' → inv s'.
Proof.
  intros I H.
  destruct (flipped s) as [|i1 [|i2 [|i3 l]]] eqn:Hf;
    try (unfold check_match in H; rewrite Hf in H; by simplify_eq).
  destruct (check_match_explicit s i1 i2 I Hf)
    as (c1 & c2 & b1 & b2 & color & score & p & Hc1 & Hc2 & Hb1 & Hb2 &
        Hcol & Hsc & Hp & Hpne & Hne & Hm1 & Hm2 & Hr1 & Hr2 & E).
  rewrite E in H. injection H as <-.
  apply finish_if_complete_inv.
  destruct (bool_decide (c1 = c2)).
  - by apply match_result_inv.
  - by apply mismatch_result_inv.
Qed.

Lemma check_match_total s : inv s → is_Some (check_match s).
Proof.
  intros I.
  destruct (flipped s) as [|i1 [|i2 [|i3 l]]] eqn:Hf;
    try (unfold check_match; rewrite Hf; by eexists).
  destruct (check_match_explicit s i1 i2 I Hf)
    as (c1 & c2 & b1 & b2 & color & score & p & _ & _ & _ & _ & _ & _ & _ &
        _ & _ & _ & _ & _ & _ & E).
  rewrite E. by eexists.
Qed.

Lemma flip_card_total idx s :
  inv s → idx < num_cards s → is_Some (flip_card idx s).
Proof.
  intros I Hidx. destruct I. unfold flip_card, config_image.
  destruct (_ || _); [by eexists|]. case_bool_decide; [by eexists|].
  destruct (lookup_lt_is_Some_2 (buttons s) idx) as [b ->]; [lia|].
  destruct (lookup_lt_is_Some_2 (cards s) idx) as [c ->]; [lia|].
  simpl. by eexists.
Qed.

Lemma step_inv s e s' : inv s → step s e = Some s' → inv s'.
Proof.
  destruct e; simpl; [apply flip_card_inv|apply check_match_inv].
Qed.

Lemma run_inv evs : ∀ s s', inv s → run s evs = Some s' → inv s'.
Proof.
  induction evs as [|e evs IH]; intros s s' I H; simpl in H.
  - by simplify_eq.
  - destruct (step s e) as [s1|] eqn:E; simpl in H; [|done].
    eapply IH; [|exact H]. by eapply step_inv.
Qed.

Lemma reachable_inv s : reachable s → inv s.
Proof.
  intros (s0 & evs & H0 & Hrun).
  eapply run_inv; [|exact Hrun]. by apply fresh_game_inv.
Qed.








(** ** The gallery along a run *)

Lemma step_gallery s e s' :
  inv s → step s e = Some s' →
  matched_paths s' =
    first_finders (matched_paths s)
      (match e with Check => find_of s | Flip _ => [] end).
Proof.
  intros I H. destruct e as [idx|]; simpl in H.
  - apply flip_card_cases in H as [->|(_ & _ & _ & b & img & _ & _ & ->)];
      [done|]. by destruct s.
  - unfold find_of.
    destruct (flipped s) as [|i1 [|i2 [|i3 l]]] eqn:Hf;
      try (unfold check_match in H; rewrite Hf in H; by injection H as <-).
    destruct (check_match_explicit s i1 i2 I Hf)
      as (c1 & c2 & b1 & b2 & color & score & p & Hc1 & Hc2 & _ & _ & _ & _ &
          Hp & Hpne & _ & _ & _ & _ & _ & E).
    rewrite E in H. injection H as <-.
    rewrite Hc1, Hc2, Hp. rewrite (bool_decide_eq_true_2 _ Hpne), andb_true_r.
    unfold finish_if_complete, gallery_result, mismatch_result, next_player.
    destruct (bool_decide (c1 = c2)); simpl.
    + replace (matched_paths (match_result i1 i2 b1 b2 color score s))
        with (matched_paths s) by (by destruct s).
      destruct (has_path p (matched_paths s)) eqn:Hh;
        case_bool_decide; by destruct s.
    + repeat case_bool_decide; by destruct s.
Qed.

Lemma first_finders_app acc l1 l2 :
  first_finders acc (l1 ++ l2) = first_finders (first_finders acc l1) l2.
Proof.
  revert acc. induction l1 as [|[p pl] l1 IH]; intros acc; simpl; [done|].
  apply IH.
Qed.

Lemma run_gallery evs :
  ∀ s s', inv s → run s evs = Some s' →
    matched_paths s' = first_finders (matched_paths s) (finds s evs).
Proof.
  induction evs as [|e evs IH]; intros s s' I H; simpl in *.
  - by simplify_eq.
  - destruct (step s e) as [s1|] eqn:E; simpl in H; [|done].
    rewrite first_finders_app, <- (step_gallery s e s1 I E).
    apply IH; [by eapply step_inv|done].
Qed.

(** [first_finders] keeps, for every path, the player of its first find. *)
Lemma first_finders_spec l : ∀ acc p pl,
  Entry p pl ∈ first_finders acc l ↔
  Entry p pl ∈ acc ∨
  ((p ∉ path <$> acc) ∧
   ∃ l1 l2, l = l1 ++ (p, pl) :: l2 ∧ (p ∉ l1.*1)).
Proof.
  induction l as [|[q ql] l IH]; intros acc p pl; simpl.
  - split; [by left|]. intros [H|(_ & l1 & l2 & H & _)]; [done|].
    by destruct l1.
  - rewrite IH. destruct (has_path q acc) eqn:Hq.
    + apply has_path_spec in Hq. split.
      * intros [H|(Hn & l1 & l2 & -> & Hl1)]; [by left|right].
        split; [done|]. exists ((q, ql) :: l1), l2. split; [done|].
        simpl. apply not_elem_of_cons. split; [|done]. by intros ->.
      * intros [H|(Hn & l1 & l2 & Heq & Hl1)]; [by left|right].
        split; [done|]. destruct l1 as [|x l1]; simpl in Heq.
        -- simplify_eq. done.
        -- simplify_eq. exists l1, l2. split; [done|].
           simpl in Hl1. by apply not_elem_of_cons in Hl1 as [_ ?].
    + assert (q ∉ path <$> acc) as Hq'.
      { intros H%has_path_spec. congruence. }
      rewrite elem_of_app, list_elem_of_singleton, fmap_app,
        not_elem_of_app. simpl. rewrite not_elem_of_cons.
      split.
      * intros [[H|H]|((Hn & Hpq & _) & l1 & l2 & -> & Hl1)].
        -- by left.
        -- injection H as -> ->. right. split; [done|].
           exists [], l. split; [done|]. apply not_elem_of_nil.
        -- right. split; [done|]. exists ((q, ql) :: l1), l2.
           split; [done|]. simpl. apply not_elem_of_cons. done.
      * intros [H|(Hn & l1 & l2 & Heq & Hl1)]; [by left; left|].
        destruct l1 as [|x l1]; simpl in Heq.
        -- simplify_eq. left. by right.
        -- simplify_eq. simpl in Hl1.
           apply not_elem_of_cons in Hl1 as [Hpq Hl1]. right.
           split; [split; [done|]; split; [done|apply not_elem_of_nil]|].
           by exists l1, l2.
Qed.

(** ** The demo board *)

Lemma demo_fresh : fresh_game demo_start.
Proof.
  exists 2%Z, demo_pool, demo_board. split; [|split; [|split]].
  - split; [|split].
    + apply (bool_decide_unpack _). by vm_compute.
    + apply (bool_decide_unpack _). by vm_compute.
    + repeat constructor; done.
  - simpl. lia.
  - apply (bool_decide_unpack _). by vm_compute.
  - done.
Qed.

Lemma demo_reachable evs s : run demo_start evs = Some s → reachable s.
Proof. intros H. exists demo_start, evs. split; [apply demo_fresh|done]. Qed.

(** ** The claims about the state machine *)

(** C1. In a reachable state with exactly two face-up cards, [check_match]
    returns; when the two images differ it turns both cards face-down,
    empties the selection and sets the current player to
    [(current + 1) mod num_players]; when they are equal the current player
    stays.  The number of players is at least one. *)
Theorem check_match_turn s i1 i2 c1 c2 :
  reachable s → flipped s = [i1; i2] →
  cards s !! i1 = Some c1 → cards s !! i2 = Some c2 →
  1 ≤ num_players s ∧
  ∃ s', check_match s = Some s' ∧
    (c1 ≠ c2 →
       flipped s' = [] ∧
       image <$> (buttons s' !! i1) = Some Back ∧
       image <$> (buttons s' !! i2) = Some Back ∧
       current_player s' = (current_player s + 1) mod num_players s) ∧
    (c1 = c2 → current_player s' = current_player s).
Proof.
  intros R Hf H1 H2. pose proof (reachable_inv s R) as I.
  destruct (check_match_explicit s i1 i2 I Hf)
    as (c1' & c2' & b1 & b2 & color & score & p & Hc1 & Hc2 & Hb1 & Hb2 &
        Hcol & Hsc & Hp & Hpne & Hne & Hm1 & Hm2 & Hr1 & Hr2 & E).
  assert (c1' = c1) as -> by congruence. assert (c2' = c2) as -> by congruence.
  split; [by destruct I|]. eexists. split; [exact E|].
  apply lookup_lt_Some in Hb1, Hb2.
  pose proof (inv_current s I) as Hcur. pose proof (inv_players s I) as Hpl.
  split.
  - intros Hc. rewrite (bool_decide_eq_false_2 _ Hc).
    unfold finish_if_complete, mismatch_result, next_player.
    assert ((current_player s + 1) mod num_players s = current_player s
            ∨ 1 < num_players s) as Hmod.
    { destruct (decide (num_players s = 1)) as [E1|]; [left|right; lia].
      rewrite E1, Nat.mod_1_r. lia. }
    repeat case_bool_decide; destruct s; simpl in *;
      (split; [done|]);
      rewrite list_lookup_insert_ne, !list_lookup_insert_eq
        by (rewrite ?length_insert; done || lia);
      repeat split; try done; destruct Hmod; lia.
  - intros Hc. rewrite (bool_decide_eq_true_2 _ Hc).
    unfold finish_if_complete, gallery_result.
    repeat (case_bool_decide || case_match); by destruct s.
Qed.

Lemma check_match_turn_witness :
  1 ≤ num_players demo_mismatch ∧
  ∃ s', check_match demo_mismatch = Some s' ∧
    (7 ≠ 8 →
       flipped s' = [] ∧
       image <$> (buttons s' !! 0) = Some Back ∧
       image <$> (buttons s' !! 1) = Some Back ∧
       current_player s' =
         (current_player demo_mismatch + 1) mod num_players demo_mismatch) ∧
    (7 = 8 → current_player s' = current_player demo_mismatch).
Proof.
  apply (check_match_turn demo_mismatch 0 1 7 8).
  - apply (demo_reachable [Flip 0; Flip 1]). vm_compute. reflexivity.
  - vm_compute. reflexivity.
  - vm_compute. reflexivity.
  - vm_compute. reflexivity.
Defined.

(** C2. [flip_card] returns the state it was given, whatever the state,
    when the index is matched, is already in the selection, or two cards
    are face-up; and in every reachable state the selection holds at most
    two indices, none of them matched. *)
Theorem flip_card_noop s idx :
  (idx ∈ matched s ∨ idx ∈ flipped s ∨ 2 ≤ length (flipped s) →
   flip_card idx s = Some s) ∧
  (reachable s →
   length (flipped s) ≤ 2 ∧ ∀ i, i ∈ flipped s → i ∉ matched s).
Proof.
  split; [apply flip_card_rejected|].
  intros I%reachable_inv. split; [by destruct I|].
  intros i Hi. by apply (inv_flipped_range s I).
Qed.

Lemma flip_card_noop_witness :
  flip_card 0 demo_mismatch = Some demo_mismatch ∧
  length (flipped demo_mismatch) ≤ 2 ∧
  ∀ i, i ∈ flipped demo_mismatch → i ∉ matched demo_mismatch.
Proof.
  split.
  - apply (proj1 (flip_card_noop demo_mismatch 0)).
    right; left. apply (bool_decide_unpack _). vm_compute. exact I.
  - apply (proj2 (flip_card_noop demo_mismatch 0)).
    apply (demo_reachable [Flip 0; Flip 1]). vm_compute. reflexivity.
Defined.





(** The demo play-through does end the game, with both pairs for player 1. *)
Example demo_end_finished :
  finished demo_end = true ∧ player_scores demo_end = [0; 2] ∧
  elements (matched demo_end) ≡ₚ [0; 1; 2; 3].
Proof.
  split; [by vm_compute|]. split; [by vm_compute|].
  apply (bool_decide_unpack _). by vm_compute.
Qed.

(** C5. Along every run from a fresh game the gallery holds no path twice,
    and it is the list of first finders of the pairs found so far: an entry
    [(p, pl)] is in the gallery exactly when [pl] made the first find of
    path [p]. *)
Theorem gallery_first_finders s0 evs s :
  fresh_game s0 → run s0 evs = Some s →
  NoDup (path <$> matched_paths s) ∧
  matched_paths s = first_finders [] (finds s0 evs) ∧
  ∀ p pl, Entry p pl ∈ matched_paths s ↔
          ∃ l1 l2, finds s0 evs = l1 ++ (p, pl) :: l2 ∧ (p ∉ l1.*1).
Proof.
  intros F Hrun. pose proof (fresh_game_inv s0 F) as I0.
  pose proof (run_inv evs s0 s I0 Hrun) as I.
  assert (matched_paths s0 = []) as H0.
  { by destruct F as (r & pool & combined & _ & _ & _ & ->). }
  pose proof (run_gallery evs s0 s I0 Hrun) as Hg. rewrite H0 in Hg.
  split; [by destruct I|]. split; [done|].
  intros p pl. rewrite Hg, first_finders_spec. split.
  - intros [H|[_ H]]; [by apply elem_of_nil in H|done].
  - intros H. right. split; [apply not_elem_of_nil|done].
Qed.

Lemma gallery_first_finders_witness :
  NoDup (path <$> matched_paths demo_end) ∧
  matched_paths demo_end = first_finders [] (finds demo_start demo_play) ∧
  ∀ p pl, Entry p pl ∈ matched_paths demo_end ↔
          ∃ l1 l2, finds demo_start demo_play = l1 ++ (p, pl) :: l2 ∧
                   (p ∉ l1.*1).
Proof.
  apply (gallery_first_finders demo_start demo_play demo_end).
  - apply demo_fresh.
  - vm_compute. reflexivity.
Defined.

Example demo_gallery :
  matched_paths demo_end = [Entry "a.png" 1; Entry "b.png" 1].
Proof. by vm_compute. Qed.

End game_facts.

Example game_smoke :
Game.player_scores <$>
  Game.run (Game.start_game 2 2 [(7, "a.png"); (8, "b.png"); (7, "a.png"); (8, "b.png")])
    [Game.Flip 0; Game.Flip 1; Game.Check; Game.Flip 0; Game.Flip 2; Game.Check;
     Game.Flip 3; Game.Flip 1; Game.Check]
= Some [0; 2].
Proof. vm_compute. reflexivity. Qed.

Section i18n_facts.
Import I18n.

Example i18n_smoke :
  lang demo_i18n = "de" ∧ (messages demo_i18n).*1 = ["de"; "en"] ∧
  language_labels demo_i18n = [("de", "Deutsch"); ("en", "English")] ∧
  lang demo_i18n_en = "en" ∧
  t unit no_format "menu.start" [] demo_i18n_en = Some "Start game" ∧
  t unit no_format "hello" [] demo_i18n_en = Some "Hallo {name}" ∧
  t unit no_format "menu.title" [] demo_i18n_en = Some "menu.title" ∧
  split_dot "a..b" = ["a"; ""; "b"] ∧ strip "  x y  " = "x y".
Proof. vm_compute. repeat split. Qed.

(** ** Ordered dictionaries *)

Lemma dict_in_spec {V} k (d : odict V) : dict_in k d = true ↔ k ∈ d.*1.
Proof. unfold dict_in. apply bool_decide_eq_true. Qed.

Lemma dict_in_false {V} k (d : odict V) : dict_in k d = false ↔ k ∉ d.*1.
Proof. unfold dict_in. apply bool_decide_eq_false. Qed.

Lemma first_key_in {V} (d : odict V) :
  d ≠ [] → ∃ k, first_key d = Some k ∧ k ∈ d.*1.
Proof.
  destruct d as [|[k v] d]; [done|]. intros _. exists k. split; [done|].
  simpl. by left.
Qed.

Lemma dict_get_in {V} k (d : odict V) : is_Some (dict_get k d) ↔ k ∈ d.*1.
Proof.
  induction d as [|[k' v] d IH]; simpl.
  - split; [by intros [? ?]|by intros ?%elem_of_nil].
  - case_decide as Hk.
    + subst. split; [intros _; by left|by eexists].
    + rewrite IH, elem_of_cons. naive_solver.
Qed.

Lemma dict_set_keys {V} k (v : V) (d : odict V) :
  (dict_set k v d).*1 = if dict_in k d then d.*1 else d.*1 ++ [k].
Proof.
  induction d as [|[k' v'] d IH]; [done|].
  cbn [dict_set]. case_decide as Hk.
  - subst. rewrite !fmap_cons. cbn [fst].
    rewrite (proj2 (dict_in_spec k ((k, v') :: d))); [done|].
    rewrite fmap_cons. by left.
  - rewrite !fmap_cons, IH. cbn [fst]. destruct (dict_in k d) eqn:E.
    + apply dict_in_spec in E.
      rewrite (proj2 (dict_in_spec k ((k', v') :: d))); [done|].
      rewrite fmap_cons. by right.
    + apply dict_in_false in E.
      rewrite (proj2 (dict_in_false k ((k', v') :: d))); [done|].
      rewrite fmap_cons, not_elem_of_cons. simpl. split; [congruence|done].
Qed.

Lemma dict_get_set {V} k (v : V) (d : odict V) k' :
  dict_get k' (dict_set k v d) = if decide (k = k') then Some v else dict_get k' d.
Proof.
  induction d as [|[k0 v0] d IH]; simpl.
  - repeat case_decide; congruence.
  - destruct (decide (k0 = k)) as [->|Hk0]; simpl.
    + repeat case_decide; congruence.
    + rewrite IH. repeat case_decide; congruence.
Qed.

(** ** The active language *)

Lemma set_language_frame code st :
  messages (set_language code st).1 = messages st ∧
  default_lang (set_language code st).1 = default_lang st ∧
  language_labels (set_language code st).1 = language_labels st.
Proof. done. Qed.

Lemma set_language_loaded code st :
  messages st ≠ [] → lang (set_language code st).1 ∈ (messages st).*1.
Proof.
  intros Hne. unfold set_language. simpl.
  destruct (first_key_in (messages st) Hne) as (k0 & Hk0 & Hin0).
  destruct (dict_in (normalize code) (messages st)) eqn:E1;
    [by apply dict_in_spec|].
  destruct (dict_in (default_lang st) (messages st)) eqn:E2.
  - rewrite E2. simpl. by apply dict_in_spec.
  - destruct (dict_in (lang st) (messages st)) eqn:E3; simpl.
    + by apply dict_in_spec.
    + by rewrite Hk0.
Qed.

Lemma set_language_wf code st : i18n_wf st → i18n_wf (set_language code st).1.
Proof.
  intros [H0 H1]. split.
  - intros Hm. change (messages st = []) in Hm. specialize (H0 Hm).
    unfold set_language, dict_in. simpl. rewrite Hm. simpl.
    rewrite ?bool_decide_eq_false_2 by apply not_elem_of_nil. simpl. done.
  - intros Hm. change (messages st ≠ []) in Hm. split.
    + exact (proj1 (H1 Hm)).
    + exact (set_language_loaded code st Hm).
Qed.

Lemma init_wf yml yaml d : i18n_wf (init yml yaml d).
Proof.
  unfold init.
  set (d0 := lower (strip _)).
  set (st := load_locales yml yaml _).
  assert (lang st = d0) as Hlang.
  { unfold st, load_locales. generalize (yml ++ yaml). intros l.
    assert (∀ st0, lang (foldl (fun st f => load_locale_file f st) st0 l)
                   = lang st0) as H.
    { induction l as [|f l IH]; intros st0; simpl; [done|].
      rewrite IH. unfold load_locale_file.
      repeat case_match; done. }
    by rewrite H. }
  set (d1 := if negb (dict_in d0 (messages st)) then _ else d0).
  set (st1 := I18N d1 (messages st) (language_labels st) (lang st)).
  split.
  - intros Hm. change (messages st = []) in Hm.
    unfold set_language, dict_in. simpl. rewrite Hm. simpl.
    rewrite ?bool_decide_eq_false_2 by apply not_elem_of_nil. simpl.
    rewrite Hlang. unfold d1, dict_in. rewrite Hm. simpl.
    by rewrite ?bool_decide_eq_false_2 by apply not_elem_of_nil.
  - intros Hm. change (messages st ≠ []) in Hm. split.
    + change (d1 ∈ (messages st).*1). unfold d1.
      destruct (dict_in d0 (messages st)) eqn:E; simpl.
      * by apply dict_in_spec.
      * destruct (first_key_in (messages st) Hm) as (k0 & -> & Hin0). done.
    + exact (set_language_loaded (Some d1) st1 Hm).
Qed.

Lemma constructed_wf st : constructed st → i18n_wf st.
Proof.
  intros (yml & yaml & d & codes & ->).
  generalize (init_wf yml yaml d). generalize (init yml yaml d).
  induction codes as [|c codes IH]; intros st0 H0; simpl; [done|].
  apply IH. by apply set_language_wf.
Qed.

(** C10. On every object built by [__init__], whatever the code:
    [set_language] leaves the catalogs and the default alone; the active
    language is a loaded catalog as soon as one is loaded; a code that
    (stripped and lower-cased) names a catalog becomes the active language,
    any other code activates the default language and is not installed; and
    the flag returned is [True] exactly when the active language changed. *)
Theorem set_language_active code st :
  constructed st →
  messages (set_language code st).1 = messages st ∧
  default_lang (set_language code st).1 = default_lang st ∧
  (messages st ≠ [] →
   lang (set_language code st).1 ∈ (messages st).*1) ∧
  ((normalize code ∈ (messages st).*1) →
   lang (set_language code st).1 = normalize code) ∧
  ((normalize code ∉ (messages st).*1) →
   lang (set_language code st).1 = default_lang st) ∧
  ((set_language code st).2 = true ↔
   lang (set_language code st).1 ≠ lang st).
Proof.
  intros [H0 H1]%constructed_wf.
  split; [done|]. split; [done|]. split; [apply set_language_loaded|].
  split; [|split].
  - intros Hin. unfold set_language. simpl.
    by rewrite (proj2 (dict_in_spec _ _) Hin).
  - intros Hnin. unfold set_language. simpl.
    rewrite (proj2 (dict_in_false _ _) Hnin).
    destruct (messages st) as [|kv l] eqn:Hm.
    + rewrite (H0 eq_refl). unfold dict_in. simpl.
      by rewrite ?bool_decide_eq_false_2 by apply not_elem_of_nil.
    + destruct H1 as [Hd _]; [done|].
      by rewrite !(proj2 (dict_in_spec _ _) Hd).
  - unfold set_language. simpl.
    rewrite negb_true_iff. split.
    + intros H%String.eqb_neq. done.
    + intros H. by apply String.eqb_neq.
Qed.

Lemma set_language_active_witness :
  messages (set_language (Some "fr") demo_i18n_en).1 = messages demo_i18n_en ∧
  default_lang (set_language (Some "fr") demo_i18n_en).1
    = default_lang demo_i18n_en ∧
  (messages demo_i18n_en ≠ [] →
   lang (set_language (Some "fr") demo_i18n_en).1
     ∈ (messages demo_i18n_en).*1) ∧
  ((normalize (Some "fr") ∈ (messages demo_i18n_en).*1) →
   lang (set_language (Some "fr") demo_i18n_en).1 = normalize (Some "fr")) ∧
  ((normalize (Some "fr") ∉ (messages demo_i18n_en).*1) →
   lang (set_language (Some "fr") demo_i18n_en).1
     = default_lang demo_i18n_en) ∧
  ((set_language (Some "fr") demo_i18n_en).2 = true ↔
   lang (set_language (Some "fr") demo_i18n_en).1 ≠ lang demo_i18n_en).
Proof.
  apply (set_language_active (Some "fr") demo_i18n_en).
  exists [demo_de; demo_en], [], (Some "de"), [Some " En "]. reflexivity.
Defined.

Example set_language_unknown_code :
  set_language (Some "fr") demo_i18n_en
  = (I18N "de" (messages demo_i18n) (language_labels demo_i18n) "de", true).
Proof. by vm_compute. Qed.

(** ** The translator *)

(** C9, as the code has it.  For a non-empty key: a string under the key in
    the active catalog is returned (through [format] when there are keyword
    arguments, unformatted when [format] raises [KeyError] or [ValueError]);
    the default catalog is asked only when the key resolves to [None] in
    the active catalog and the default language is loaded; any other value
    that is not a string gives the raw key, whatever the default catalog
    holds. *)
Theorem t_resolution (pyobj : Type)
    (format : string → list (string * pyobj) → format_result)
    (key : string) (kwargs : list (string * pyobj)) (st : i18n) :
  key ≠ "" →
  (∀ s, resolve (messages_get (lang st) st) (split_dot key) = VStr s →
        t pyobj format key kwargs st = render format kwargs s) ∧
  (∀ s, resolve (messages_get (lang st) st) (split_dot key) = VNone →
        default_lang st ∈ (messages st).*1 →
        resolve (messages_get (default_lang st) st) (split_dot key) = VStr s →
        t pyobj format key kwargs st = render format kwargs s) ∧
  (resolve (messages_get (lang st) st) (split_dot key) = VNone →
   (default_lang st ∉ (messages st).*1) ∨
   (∀ s, resolve (messages_get (default_lang st) st) (split_dot key) ≠ VStr s) →
   t pyobj format key kwargs st = Some key) ∧
  (resolve (messages_get (lang st) st) (split_dot key) ≠ VNone →
   (∀ s, resolve (messages_get (lang st) st) (split_dot key) ≠ VStr s) →
   t pyobj format key kwargs st = Some key).
Proof.
  intros Hkey. apply String.eqb_neq in Hkey. unfold t, render. rewrite Hkey.
  split_and!.
  - intros s ->. done.
  - intros s -> Hd%dict_in_spec ->. rewrite Hd. done.
  - intros -> [Hd%dict_in_false|Hs].
    + rewrite Hd. done.
    + destruct (dict_in _ _); [|done].
      destruct (resolve _ _) as [|s| |] eqn:E; try done. by destruct (Hs s).
  - intros Hn Hs. destruct (resolve _ _) as [|s| |] eqn:E; try done.
    by destruct (Hs s).
Qed.

Lemma t_resolution_witness :
  (∀ s, resolve (messages_get (lang demo_i18n_en) demo_i18n_en)
          (split_dot "menu.title") = VStr s →
        t unit no_format "menu.title" [] demo_i18n_en
        = render no_format [] s) ∧
  (∀ s, resolve (messages_get (lang demo_i18n_en) demo_i18n_en)
          (split_dot "menu.title") = VNone →
        default_lang demo_i18n_en ∈ (messages demo_i18n_en).*1 →
        resolve (messages_get (default_lang demo_i18n_en) demo_i18n_en)
          (split_dot "menu.title") = VStr s →
        t unit no_format "menu.title" [] demo_i18n_en
        = render no_format [] s) ∧
  (resolve (messages_get (lang demo_i18n_en) demo_i18n_en)
     (split_dot "menu.title") = VNone →
   (default_lang demo_i18n_en ∉ (messages demo_i18n_en).*1) ∨
   (∀ s, resolve (messages_get (default_lang demo_i18n_en) demo_i18n_en)
           (split_dot "menu.title") ≠ VStr s) →
   t unit no_format "menu.title" [] demo_i18n_en = Some "menu.title") ∧
  (resolve (messages_get (lang demo_i18n_en) demo_i18n_en)
     (split_dot "menu.title") ≠ VNone →
   (∀ s, resolve (messages_get (lang demo_i18n_en) demo_i18n_en)
           (split_dot "menu.title") ≠ VStr s) →
   t unit no_format "menu.title" [] demo_i18n_en = Some "menu.title").
Proof.
  apply (t_resolution unit no_format "menu.title" [] demo_i18n_en).
  discriminate.
Defined.

(** C9 as the claim states it fails: the English catalog holds a value that
    is not a string under [menu.title], the German (default) catalog holds
    the string [Memory], and [t] returns the key. *)
Lemma t_fallback_counterexample :
  constructed demo_i18n_en ∧
  resolve (messages_get (lang demo_i18n_en) demo_i18n_en)
    (split_dot "menu.title") = VOther true ∧
  resolve (messages_get (default_lang demo_i18n_en) demo_i18n_en)
    (split_dot "menu.title") = VStr "Memory" ∧
  t_as_claimed "menu.title" demo_i18n_en = "Memory" ∧
  t unit no_format "menu.title" [] demo_i18n_en = Some "menu.title".
Proof.
  split.
  - exists [demo_de; demo_en], [], (Some "de"), [Some " En "]. reflexivity.
  - by vm_compute.
Qed.

(** Where claim and code agree: the active catalog holds a string, or holds
    nothing under the key. *)
Lemma t_agrees_with_claim (key : string) (st : i18n) :
  constructed st → key ≠ "" →
  (∀ b, resolve (messages_get (lang st) st) (split_dot key) ≠ VOther b) →
  (∀ d, resolve (messages_get (lang st) st) (split_dot key) ≠ VDict d) →
  t unit no_format key [] st = Some (t_as_claimed key st).
Proof.
  intros [H0 H1]%constructed_wf Hkey%String.eqb_neq Hb Hd.
  unfold t, t_as_claimed. rewrite Hkey.
  destruct (resolve (messages_get (lang st) st) _) as [|s|d|b] eqn:E;
    [|done|by destruct (Hd d)|by destruct (Hb b)].
  destruct (dict_in _ _) eqn:Hin.
  - by destruct (resolve (messages_get (default_lang st) st) (split_dot key)).
  - apply dict_in_false in Hin.
    assert (messages st = []) as Hm.
    { destruct (messages st) eqn:Hm; [done|]. destruct H1 as [? _]; done. }
    unfold messages_get in *. rewrite Hm in *. simpl in *. by rewrite E.
Qed.

End i18n_facts.
